(** * micromagnetic_FF_3D: core-shell form factor with a micromagnetic
      transverse response (sasmodels/models/micromagnetic_FF_3D.c)

    Shallow embedding of the model kernel.  A C [double] is read as a real
    number (Stdlib [R]): the development is about the algebra the kernel
    computes, not about rounding.  Division is the total division of [R]
    ([x / 0 = 0]); statements that need a non-zero divisor say so.  A C
    [int] is a [Z].  A [double a[n]] out-parameter filled by a callee is the
    function from index to value that the callee returns. *)

From Stdlib Require Import Reals ZArith List Lra.
Import ListNotations.

Local Open Scope R_scope.

(** ** Definitions the kernel takes from the sasmodels headers *)

Module Header.

(** [M_PI] of math.h. *)
Definition M_PI : R := PI.

(** Modelled from the spec: the constant [M_4PI_3] of kernel_header.c is not
    part of the source file; the spec gives the volume as
    [(4 pi / 3) (radius + thickness)^3]. *)
Definition M_4PI_3 : R := 4 * PI / 3.

(** Modelled from the spec: [square] and [cube] of kernel_header.c are the
    second and third power. *)
Definition square (x : R) : R := x * x.
Definition cube (x : R) : R := x * x * x.

(** Modelled from the spec: the macro [MAG_VEC] of the magnetic library is the
    magnitude [|(a, b, c)|] of a 3-vector. *)
Definition MAG_VEC (a b c : R) : R := sqrt (a * a + b * b + c * c).

End Header.

Import Header.

(** ** The pure leaf functions *)

Definition form_volume (radius thickness : R) : R :=
  M_4PI_3 * cube (radius + thickness).

(** [switch (mode) { default: case 1: return radius + thickness;
                     case 2: return radius; }] *)
Definition radius_effective (mode : Z) (radius thickness : R) : R :=
  match mode with
  | 1%Z => radius + thickness
  | 2%Z => radius
  | _ => radius + thickness
  end.

Definition reduced_field (q Ms Hi A : R) : R :=
  if Rgt_dec Hi 1.0e-6
  then Ms / (Hi + 2.0 * A * 4.0 * M_PI / Ms * q * q * 10.0)
  else Ms / (1.0e-6 + 2.0 * A * 4.0 * M_PI / Ms * q * q * 10.0).

Definition DMI_length (Ms D qval : R) : R :=
  2.0 * D * 4.0 * M_PI / Ms / Ms * qval.

(** ** The four transverse magnetisation components *)

Definition fqMxreal (x y z Mz Hkx Hky Hi Ms A D : R) : R :=
  let q := MAG_VEC x y z in
  let f :=
    reduced_field q Ms Hi A
    * (Hkx * (1.0 + reduced_field q Ms Hi A * y * y / q / q)
       - Ms * Mz * x * z / q / q
         * (1.0 + reduced_field q Ms Hi A * DMI_length Ms D q * DMI_length Ms D q)
       - Hky * reduced_field q Ms Hi A * x * y / q / q)
    / (1.0 + reduced_field q Ms Hi A * (x * x + y * y) / q / q
       - square (reduced_field q Ms Hi A * DMI_length Ms D z)) in
  f.

Definition fqMximag (x y z Mz Hkx Hky Hi Ms A D : R) : R :=
  let q := MAG_VEC x y z in
  let f :=
    - reduced_field q Ms Hi A
    * (Ms * Mz * (1.0 + reduced_field q Ms Hi A) * DMI_length Ms D y
       + Hky * reduced_field q Ms Hi A * DMI_length Ms D z)
    / (1.0 + reduced_field q Ms Hi A * (x * x + y * y) / q / q
       - square (reduced_field q Ms Hi A * DMI_length Ms D z)) in
  f.

Definition fqMyreal (x y z Mz Hkx Hky Hi Ms A D : R) : R :=
  let q := MAG_VEC x y z in
  let f :=
    reduced_field q Ms Hi A
    * (Hky * (1.0 + reduced_field q Ms Hi A * x * x / q / q)
       - Ms * Mz * y * z / q / q
         * (1.0 + reduced_field q Ms Hi A * DMI_length Ms D q * DMI_length Ms D q)
       - Hkx * reduced_field q Ms Hi A * x * y / q / q)
    / (1.0 + reduced_field q Ms Hi A * (x * x + y * y) / q / q
       - square (reduced_field q Ms Hi A * DMI_length Ms D z)) in
  f.

Definition fqMyimag (x y z Mz Hkx Hky Hi Ms A D : R) : R :=
  let q := MAG_VEC x y z in
  let f :=
    reduced_field q Ms Hi A
    * (Ms * Mz * (1.0 + reduced_field q Ms Hi A) * DMI_length Ms D x
       - Hkx * reduced_field q Ms Hi A * DMI_length Ms D z)
    / (1.0 + reduced_field q Ms Hi A * (x * x + y * y) / q / q
       - square (reduced_field q Ms Hi A * DMI_length Ms D z)) in
  f.

(** ** The channel loop, the quadrature loops and the two evaluators *)

(** [acc = 0.0; for (i = 0; i < n; i++) acc += body(i);] *)
Definition sum_loop (n : nat) (body : nat -> R) : R :=
  fold_left (fun acc i => acc + body i) (seq 0 n) 0.0.

(** [form = 0.0; for (xs = 0; xs < 8; xs++)
      if (weights[xs] > 1.0e-8) form += weights[xs]*sld[xs]*sld[xs];] *)
Definition channel_step (weights sld : nat -> R) (form : R) (xs : nat) : R :=
  if Rgt_dec (weights xs) 1.0e-8
  then form + weights xs * sld xs * sld xs
  else form.

Definition channel_form (weights sld : nat -> R) : R :=
  fold_left (channel_step weights sld) (seq 0 8) 0.0.

(** The collaborators the file calls but does not define: the core-shell
    amplitude, the rotation into the sample frame, the polarisation weights,
    the combiner into eight channel amplitudes and the Gauss-Legendre table. *)
Class Collaborators : Type := {
  core_shell_fq : R -> R -> R -> R -> R -> R -> R;
  set_scatvec : R -> R -> R -> R -> R -> nat -> R;
  set_weights : R -> R -> nat -> R;
  mag_sld : R -> R -> R -> R -> R -> R -> R -> R -> R -> R -> nat -> R;
  GAUSS_N : nat;
  GAUSS_Z : nat -> R;
  GAUSS_W : nat -> R
}.

Section Kernel.

Context {E : Collaborators}.

Definition fq (q radius thickness core_sld shell_sld solvent_sld : R) : R :=
  let form :=
    core_shell_fq q radius thickness core_sld shell_sld solvent_sld in
  form.

(** A non-void C function whose control reaches its closing brace returns no
    value: the result of [Iqxy] is [None] there. *)
Definition Iqxy (qx qy radius thickness core_nuc shell_nuc solvent_nuc
                 core_Ms shell_Ms solvent_Ms core_hk Hi Ms A D
                 up_i up_f alpha beta : R) : option R :=
  let q := MAG_VEC qx qy 0 in
  if Rgt_dec q 1.0e-16 then
    let cos_theta := qx / q in
    let sin_theta := qy / q in
    let qrot := set_scatvec q cos_theta sin_theta alpha beta in
    let weights := set_weights up_i up_f in
    let mz := fq q radius thickness core_Ms shell_Ms solvent_Ms in
    let nuc := fq q radius thickness core_nuc shell_nuc solvent_nuc in
    let total_F2 :=
      sum_loop GAUSS_N (fun i =>
        let gamma := M_PI * (GAUSS_Z i + 1.0) in
        let sin_gamma := sin gamma in
        let cos_gamma := cos gamma in
        let Hkx := fq q radius thickness core_hk 0 0 * sin_gamma in
        let Hky := fq q radius thickness core_hk 0 0 * cos_gamma in
        let mxreal := fqMxreal (qrot 0%nat) (qrot 1%nat) (qrot 2%nat) mz Hkx Hky Hi Ms A D in
        let mximag := fqMximag (qrot 0%nat) (qrot 1%nat) (qrot 2%nat) mz Hkx Hky Hi Ms A D in
        let myreal := fqMyreal (qrot 0%nat) (qrot 1%nat) (qrot 2%nat) mz Hkx Hky Hi Ms A D in
        let myimag := fqMyimag (qrot 0%nat) (qrot 1%nat) (qrot 2%nat) mz Hkx Hky Hi Ms A D in
        let sld := mag_sld (qrot 0%nat) (qrot 1%nat) (qrot 2%nat)
                           mxreal mximag myreal myimag mz 0 nuc in
        let form := channel_form weights sld in
        GAUSS_W i * form) in
    Some (0.5 * 1.0e-4 * total_F2)
  else None.

Definition Iq (q radius thickness core_nuc shell_nuc solvent_nuc
               core_Ms shell_Ms solvent_Ms core_hk Hi Ms A D
               up_i up_f alpha beta : R) : R :=
  let total_F1D :=
    sum_loop GAUSS_N (fun j =>
      let theta := M_PI * (GAUSS_Z j + 1.0) in
      let sin_theta := sin theta in
      let cos_theta := cos theta in
      let qrot := set_scatvec q cos_theta sin_theta alpha beta in
      let weights := set_weights up_i up_f in
      let mz := fq q radius thickness core_Ms shell_Ms solvent_Ms in
      let nuc := fq q radius thickness core_nuc shell_nuc solvent_nuc in
      let total_F2 :=
        sum_loop GAUSS_N (fun i =>
          let gamma := M_PI * (GAUSS_Z i + 1.0) in
          let sin_gamma := sin gamma in
          let cos_gamma := cos gamma in
          let Hkx := fq q radius thickness core_hk 0 0 * sin_gamma in
          let Hky := fq q radius thickness core_hk 0 0 * cos_gamma in
          let mxreal := fqMxreal (qrot 0%nat) (qrot 1%nat) (qrot 2%nat) mz Hkx Hky Hi Ms A D in
          let mximag := fqMximag (qrot 0%nat) (qrot 1%nat) (qrot 2%nat) mz Hkx Hky Hi Ms A D in
          let myreal := fqMyreal (qrot 0%nat) (qrot 1%nat) (qrot 2%nat) mz Hkx Hky Hi Ms A D in
          let myimag := fqMyimag (qrot 0%nat) (qrot 1%nat) (qrot 2%nat) mz Hkx Hky Hi Ms A D in
          let sld := mag_sld (qrot 0%nat) (qrot 1%nat) (qrot 2%nat)
                             mxreal mximag myreal myimag mz 0 nuc in
          let form := channel_form weights sld in
          GAUSS_W i * form) in
      GAUSS_W j * total_F2) in
  0.25 * 1.0e-4 * total_F1D.

End Kernel.

(** ** Reference expressions the statements compare the code with *)

(** The floor on the internal field. *)
Definition Hi_eff (Hi : R) : R := Rmax Hi 1e-6.

(** The denominator shared by the four components, as the specification
    writes it. *)
Definition denom (x y z Hi Ms A D : R) : R :=
  let q := MAG_VEC x y z in
  let chi := reduced_field q Ms Hi A in
  1 + chi * (x ^ 2 + y ^ 2) / q ^ 2 - (chi * DMI_length Ms D z) ^ 2.

(** The numerators: what each component's expression has in front of its
    division. *)
Definition fqMxreal_num (x y z Mz Hkx Hky Hi Ms A D : R) : R :=
  let q := MAG_VEC x y z in
  reduced_field q Ms Hi A
  * (Hkx * (1.0 + reduced_field q Ms Hi A * y * y / q / q)
     - Ms * Mz * x * z / q / q
       * (1.0 + reduced_field q Ms Hi A * DMI_length Ms D q * DMI_length Ms D q)
     - Hky * reduced_field q Ms Hi A * x * y / q / q).

Definition fqMximag_num (x y z Mz Hky Hi Ms A D : R) : R :=
  let q := MAG_VEC x y z in
  - reduced_field q Ms Hi A
  * (Ms * Mz * (1.0 + reduced_field q Ms Hi A) * DMI_length Ms D y
     + Hky * reduced_field q Ms Hi A * DMI_length Ms D z).

Definition fqMyreal_num (x y z Mz Hkx Hky Hi Ms A D : R) : R :=
  let q := MAG_VEC x y z in
  reduced_field q Ms Hi A
  * (Hky * (1.0 + reduced_field q Ms Hi A * x * x / q / q)
     - Ms * Mz * y * z / q / q
       * (1.0 + reduced_field q Ms Hi A * DMI_length Ms D q * DMI_length Ms D q)
     - Hkx * reduced_field q Ms Hi A * x * y / q / q).

Definition fqMyimag_num (x y z Mz Hkx Hi Ms A D : R) : R :=
  let q := MAG_VEC x y z in
  reduced_field q Ms Hi A
  * (Ms * Mz * (1.0 + reduced_field q Ms Hi A) * DMI_length Ms D x
     - Hkx * reduced_field q Ms Hi A * DMI_length Ms D z).

(** The sum over the eight polarisation channels. *)
Definition sum8 (f : nat -> R) : R :=
  f 0%nat + f 1%nat + f 2%nat + f 3%nat + f 4%nat + f 5%nat + f 6%nat + f 7%nat.

(** What one channel adds to the form value: the code's test. *)
Definition channel_term (w s : R) : R :=
  if Rgt_dec w 1e-8 then w * s ^ 2 else 0.

(** What one channel adds when it is skipped exactly when its weight is below
    [1e-8], as the specification words it. *)
Definition channel_term_spec (w s : R) : R :=
  if Rlt_dec w 1e-8 then 0 else w * s ^ 2.

Definition channel_form_spec (weights sld : nat -> R) : R :=
  sum8 (fun xs => channel_term_spec (weights xs) (sld xs)).

(** Weights with the two [uu] channels at exactly [1e-8] and the two [du]
    channels at [1 - 1e-8], and unit channel amplitudes. *)
Definition weights_at_threshold (xs : nat) : R :=
  match xs with
  | 2%nat | 3%nat => 1e-8
  | 4%nat | 5%nat => 1 - 1e-8
  | _ => 0
  end.

Definition unit_sld (xs : nat) : R := 1.

(** The eight channel amplitudes at quadrature node [i] of the easy-axis
    average, for a rotated vector [qrot]. *)
Definition node_sld {E : Collaborators} (q : R) (qrot : nat -> R)
    (radius thickness core_hk mz nuc Hi Ms A D : R) (i : nat) : nat -> R :=
  let gamma := M_PI * (GAUSS_Z i + 1.0) in
  let Hkx := fq q radius thickness core_hk 0 0 * sin gamma in
  let Hky := fq q radius thickness core_hk 0 0 * cos gamma in
  mag_sld (qrot 0%nat) (qrot 1%nat) (qrot 2%nat)
    (fqMxreal (qrot 0%nat) (qrot 1%nat) (qrot 2%nat) mz Hkx Hky Hi Ms A D)
    (fqMximag (qrot 0%nat) (qrot 1%nat) (qrot 2%nat) mz Hkx Hky Hi Ms A D)
    (fqMyreal (qrot 0%nat) (qrot 1%nat) (qrot 2%nat) mz Hkx Hky Hi Ms A D)
    (fqMyimag (qrot 0%nat) (qrot 1%nat) (qrot 2%nat) mz Hkx Hky Hi Ms A D)
    mz 0 nuc.

(** The easy-axis average for a rotated vector: the weighted sum over the
    quadrature nodes of the eight-channel sums. *)
Definition gamma_average {E : Collaborators} (q : R) (qrot weights : nat -> R)
    (radius thickness core_hk mz nuc Hi Ms A D : R) : R :=
  sum_loop GAUSS_N (fun i =>
    GAUSS_W i
    * sum8 (fun xs =>
        channel_term (weights xs)
          (node_sld q qrot radius thickness core_hk mz nuc Hi Ms A D i xs))).

(** The azimuth (and easy-axis angle) of quadrature node [j]:
    [M_PI * (GAUSS_Z[j] + 1.0)]. *)
Definition node_angle {E : Collaborators} (j : nat) : R :=
  M_PI * (GAUSS_Z j + 1.0).

(** An instance of the collaborators for sample evaluations: the two-point
    Gauss-Legendre rule, an in-plane rotated vector, eight equal channel
    weights [up_i * up_f] and a combiner that adds the amplitudes. *)
Definition sample_collaborators : Collaborators := {|
  core_shell_fq := fun q radius thickness core shell solvent => core - solvent;
  set_scatvec := fun q c s alpha beta k =>
    match k with 0%nat => q * c | 1%nat => q * s | _ => 0 end;
  set_weights := fun up_i up_f xs => up_i * up_f;
  mag_sld := fun qx qy qz mxr mxi myr myi mz my nuc xs => nuc + mz + mxr + myr;
  GAUSS_N := 2;
  GAUSS_Z := fun i => match i with 0%nat => - / sqrt 3 | _ => / sqrt 3 end;
  GAUSS_W := fun i => 1
|}.

(** ** Literals *)

Lemma lit_1 : 1.0 = 1. Proof. lra. Qed.
Lemma lit_2 : 2.0 = 2. Proof. lra. Qed.
Lemma lit_4 : 4.0 = 4. Proof. lra. Qed.
Lemma lit_10 : 10.0 = 10. Proof. lra. Qed.
Lemma lit_0 : 0.0 = 0. Proof. lra. Qed.

Ltac lits := rewrite ?lit_1, ?lit_2, ?lit_4, ?lit_10, ?lit_0.

(** ** EffectiveSizeModel *)

(** C4: [radius_effective] returns [radius] when [mode] is 2 and
    [radius + thickness] for every other mode, so that mode 1 and the default
    agree; [radius_effective 1 50 10 = 60] and [radius_effective 2 50 10 = 50]. *)
Theorem radius_effective_modes (mode : Z) (radius thickness : R) :
  radius_effective 2 radius thickness = radius
  /\ (mode <> 2%Z ->
      radius_effective mode radius thickness = radius + thickness
      /\ radius_effective mode radius thickness
         = radius_effective 1 radius thickness)
  /\ radius_effective 1 50 10 = 60
  /\ radius_effective 2 50 10 = 50.
Proof.
  split; [reflexivity|]. split; [|split; [unfold radius_effective; lra|reflexivity]].
  intros Hm. unfold radius_effective.
  destruct mode as [|p|p]; try (split; reflexivity).
  destruct p as [p|p|]; try (split; reflexivity);
    destruct p as [p|p|]; try (split; reflexivity).
  contradiction.
Qed.

Lemma radius_effective_modes_witness :
  (7 <> 2)%Z /\ radius_effective 7 50 10 = 50 + 10.
Proof.
  split; [discriminate|].
  apply (proj1 (proj2 (radius_effective_modes 7 50 10))). discriminate.
Defined.

(** ** SusceptibilityModel and ChiralLengthModel *)

Lemma reduced_field_above (q Ms Hi A : R) :
  Hi > 1e-6 ->
  reduced_field q Ms Hi A = Ms / (Hi + 2 * A * 4 * PI / Ms * q * q * 10).
Proof.
  intros HHi. unfold reduced_field, M_PI.
  destruct (Rgt_dec Hi 1.0e-6) as [_|Hn]; [|lra].
  lits. reflexivity.
Qed.

Lemma reduced_field_floored (q Ms Hi A : R) :
  Hi <= 1e-6 ->
  reduced_field q Ms Hi A = Ms / (1e-6 + 2 * A * 4 * PI / Ms * q * q * 10).
Proof.
  intros HHi. unfold reduced_field, M_PI.
  destruct (Rgt_dec Hi 1.0e-6) as [Hgt|_]; [lra|].
  lits. replace 1.0e-6 with 1e-6 by lra. reflexivity.
Qed.

(** The two branches of [reduced_field] are one formula over the floored
    field; no assumption on the arguments is needed. *)
Lemma reduced_field_Hi_eff (q Ms Hi A : R) :
  reduced_field q Ms Hi A
  = Ms / (Hi_eff Hi + 2 * A * 4 * PI / Ms * q * q * 10).
Proof.
  unfold Hi_eff, Rmax.
  destruct (Rle_dec Hi 1e-6) as [Hle|Hgt].
  - now apply reduced_field_floored.
  - apply reduced_field_above. lra.
Qed.

(** C3: for [Ms <> 0] and [Hi >= 0], [reduced_field q Ms Hi A] is
    [Ms / (Hi_eff + 2*A*4*pi/Ms*q^2*10)] with [Hi_eff = max(Hi, 1e-6)]; at
    [Hi = 0] it is [Ms / (1e-6 + 2*A*4*pi/Ms*q^2*10)]. *)
Theorem reduced_field_formula (q Ms Hi A : R) :
  Ms <> 0 -> 0 <= Hi ->
  reduced_field q Ms Hi A
  = Ms / (Rmax Hi 1e-6 + 2 * A * 4 * PI / Ms * q ^ 2 * 10)
  /\ reduced_field q Ms 0 A
     = Ms / (1e-6 + 2 * A * 4 * PI / Ms * q ^ 2 * 10).
Proof.
  intros _ _.
  replace (2 * A * 4 * PI / Ms * q ^ 2 * 10)
    with (2 * A * 4 * PI / Ms * q * q * 10) by ring.
  split.
  - apply reduced_field_Hi_eff.
  - apply reduced_field_floored. lra.
Qed.

Lemma reduced_field_formula_witness :
  reduced_field 1 1 3 1 = 1 / (Rmax 3 1e-6 + 2 * 1 * 4 * PI / 1 * 1 ^ 2 * 10).
Proof.
  apply (reduced_field_formula 1 1 3 1); lra.
Defined.

Lemma DMI_length_eq (Ms D p : R) :
  DMI_length Ms D p = 2 * D * 4 * PI * (/ Ms * / Ms) * p.
Proof.
  unfold DMI_length, M_PI, Rdiv. lits. ring.
Qed.

(** C7: for [Ms <> 0], [DMI_length Ms D p = 2*D*4*pi/(Ms^2)*p]; it is linear
    in [D], linear in [p], and odd in the projection. *)
Theorem DMI_length_linear_odd (Ms D p : R) :
  Ms <> 0 ->
  DMI_length Ms D p = 2 * D * 4 * PI / (Ms ^ 2) * p
  /\ (forall a b D1 D2,
        DMI_length Ms (a * D1 + b * D2) p
        = a * DMI_length Ms D1 p + b * DMI_length Ms D2 p)
  /\ (forall a b p1 p2,
        DMI_length Ms D (a * p1 + b * p2)
        = a * DMI_length Ms D p1 + b * DMI_length Ms D p2)
  /\ DMI_length Ms D (- p) = - DMI_length Ms D p.
Proof.
  intros HMs. repeat split; intros; rewrite ?DMI_length_eq.
  - unfold Rdiv. simpl. rewrite Rmult_1_r, Rinv_mult. reflexivity.
  - ring.
  - ring.
  - ring.
Qed.

Lemma DMI_length_linear_odd_witness :
  DMI_length 2 3 (- 5) = - DMI_length 2 3 5.
Proof.
  apply (DMI_length_linear_odd 2 3 5). lra.
Defined.

Lemma Rdiv_antitone_pos (m d1 d2 : R) :
  0 < m -> 0 < d1 -> d1 <= d2 -> m / d2 <= m / d1.
Proof.
  intros Hm Hd1 Hd. unfold Rdiv.
  apply Rmult_le_compat_l; [lra|].
  apply Rinv_le_contravar; assumption.
Qed.

Lemma Hi_eff_pos (Hi : R) : 0 < Hi_eff Hi.
Proof.
  unfold Hi_eff. apply Rlt_le_trans with (r2 := 1e-6); [lra|apply Rmax_r].
Qed.

Lemma Hi_eff_mono (Hi1 Hi2 : R) : Hi1 <= Hi2 -> Hi_eff Hi1 <= Hi_eff Hi2.
Proof.
  intros Hle. unfold Hi_eff. apply Rle_max_compat_r. exact Hle.
Qed.

Lemma exchange_term_nonneg (q Ms A : R) :
  0 < Ms -> 0 <= A -> 0 <= 2 * A * 4 * PI / Ms * q * q * 10.
Proof.
  intros HMs HA.
  assert (Hpi := PI_RGT_0).
  assert (Hinv : 0 < / Ms) by (apply Rinv_0_lt_compat; exact HMs).
  assert (Hq : 0 <= q * q) by nra.
  assert (HAp : 0 <= A * PI) by nra.
  assert (HApi : 0 <= A * PI * / Ms) by nra.
  unfold Rdiv.
  replace (2 * A * 4 * PI * / Ms * q * q * 10)
    with (80 * ((A * PI * / Ms) * (q * q))) by ring.
  nra.
Qed.

(** Monotonicity wherever the denominator at the smaller field is positive. *)
Lemma reduced_field_antitone_pos_denominator (q Ms A Hi1 Hi2 : R) :
  0 < Ms ->
  0 < Hi_eff Hi1 + 2 * A * 4 * PI / Ms * q * q * 10 ->
  Hi1 <= Hi2 ->
  reduced_field q Ms Hi2 A <= reduced_field q Ms Hi1 A.
Proof.
  intros HMs Hd Hle. rewrite !reduced_field_Hi_eff.
  apply Rdiv_antitone_pos; [assumption|assumption|].
  apply Rplus_le_compat_r, Hi_eff_mono, Hle.
Qed.

(** C8 (as amended): for [Ms > 0] and [A >= 0], [reduced_field] is
    non-increasing in [Hi] on [Hi >= 0]. *)
Theorem reduced_field_antitone_Hi (q Ms A Hi1 Hi2 : R) :
  0 < Ms -> 0 <= A -> 0 <= Hi1 -> Hi1 <= Hi2 ->
  reduced_field q Ms Hi2 A <= reduced_field q Ms Hi1 A.
Proof.
  intros HMs HA _ Hle.
  apply reduced_field_antitone_pos_denominator; [assumption| |assumption].
  assert (H1 := Hi_eff_pos Hi1).
  assert (H2 := exchange_term_nonneg q Ms A HMs HA).
  lra.
Qed.

Lemma reduced_field_antitone_Hi_witness :
  reduced_field 1 1 2 1 <= reduced_field 1 1 1 1.
Proof.
  apply (reduced_field_antitone_Hi 1 1 1 1 2); lra.
Defined.

(** C8 (as stated) fails: with a negative [Ms] the susceptibility grows with
    [Hi], and with a negative [A] the denominator changes sign. *)
Lemma reduced_field_antitone_Hi_counterexample :
  (-1 <> 0 /\ 0 <= 1 <= 2
   /\ ~ reduced_field 1 (-1) 2 0 <= reduced_field 1 (-1) 1 0)
  /\ (1 <> 0 /\ 0 <= 1 <= 400
      /\ ~ reduced_field 1 1 400 (-1) <= reduced_field 1 1 1 (-1)).
Proof.
  split.
  - split; [lra|]. split; [lra|].
    rewrite !reduced_field_above by lra.
    replace (-1 / (2 + 2 * 0 * 4 * PI / -1 * 1 * 1 * 10)) with (-1 / 2)
      by (f_equal; unfold Rdiv; ring).
    replace (-1 / (1 + 2 * 0 * 4 * PI / -1 * 1 * 1 * 10)) with (-1 / 1)
      by (f_equal; unfold Rdiv; ring).
    lra.
  - split; [lra|]. split; [lra|].
    rewrite !reduced_field_above by lra.
    assert (Hlo : 3 < PI) by (generalize PI2_3_2; lra).
    assert (Hhi := PI_4).
    replace (2 * -1 * 4 * PI / 1 * 1 * 1 * 10) with (- (80 * PI))
      by (unfold Rdiv; rewrite Rinv_1; ring).
    assert (Hneg : 1 / (1 + - (80 * PI)) < 0).
    { unfold Rdiv. rewrite Rmult_1_l. apply Rinv_lt_0_compat. lra. }
    assert (Hpos : 0 < 1 / (400 + - (80 * PI))).
    { unfold Rdiv. rewrite Rmult_1_l. apply Rinv_0_lt_compat. lra. }
    lra.
Qed.

(** ** MagnetizationResponse *)

Lemma MAG_VEC_unit_x : MAG_VEC 1 0 0 = 1.
Proof.
  unfold MAG_VEC.
  replace (1 * 1 + 0 * 0 + 0 * 0) with 1 by ring.
  apply sqrt_1.
Qed.

Lemma MAG_VEC_zero : MAG_VEC 0 0 0 = 0.
Proof.
  unfold MAG_VEC.
  replace (0 * 0 + 0 * 0 + 0 * 0) with 0 by ring.
  apply sqrt_0.
Qed.

Lemma DMI_length_D0 (Ms p : R) : DMI_length Ms 0 p = 0.
Proof. rewrite DMI_length_eq. ring. Qed.

(** The divisor each component's expression spells out is [denom]. *)
Lemma denom_code (x y z Hi Ms A D : R) :
  1.0 + reduced_field (MAG_VEC x y z) Ms Hi A * (x * x + y * y)
        / MAG_VEC x y z / MAG_VEC x y z
  - square (reduced_field (MAG_VEC x y z) Ms Hi A * DMI_length Ms D z)
  = denom x y z Hi Ms A D.
Proof.
  unfold denom, square, Rdiv. cbv zeta. lits.
  simpl pow. rewrite !Rmult_1_r, Rinv_mult. ring.
Qed.

Lemma fqMxreal_quotient (x y z Mz Hkx Hky Hi Ms A D : R) :
  fqMxreal x y z Mz Hkx Hky Hi Ms A D
  = fqMxreal_num x y z Mz Hkx Hky Hi Ms A D / denom x y z Hi Ms A D.
Proof.
  unfold fqMxreal, fqMxreal_num. cbv zeta. rewrite denom_code. reflexivity.
Qed.

Lemma fqMximag_quotient (x y z Mz Hkx Hky Hi Ms A D : R) :
  fqMximag x y z Mz Hkx Hky Hi Ms A D
  = fqMximag_num x y z Mz Hky Hi Ms A D / denom x y z Hi Ms A D.
Proof.
  unfold fqMximag, fqMximag_num. cbv zeta. rewrite denom_code. reflexivity.
Qed.

Lemma fqMyreal_quotient (x y z Mz Hkx Hky Hi Ms A D : R) :
  fqMyreal x y z Mz Hkx Hky Hi Ms A D
  = fqMyreal_num x y z Mz Hkx Hky Hi Ms A D / denom x y z Hi Ms A D.
Proof.
  unfold fqMyreal, fqMyreal_num. cbv zeta. rewrite denom_code. reflexivity.
Qed.

Lemma fqMyimag_quotient (x y z Mz Hkx Hky Hi Ms A D : R) :
  fqMyimag x y z Mz Hkx Hky Hi Ms A D
  = fqMyimag_num x y z Mz Hkx Hi Ms A D / denom x y z Hi Ms A D.
Proof.
  unfold fqMyimag, fqMyimag_num. cbv zeta. rewrite denom_code. reflexivity.
Qed.

Lemma Rmult_div_cancel (n d : R) : d <> 0 -> d * (n / d) = n.
Proof. intros Hd. unfold Rdiv. rewrite (Rmult_comm n), <- Rmult_assoc, Rinv_r by exact Hd. ring. Qed.

(** Values at the point [x = 1, y = z = 0] used below. *)
Lemma reduced_field_A0 (q Ms Hi : R) :
  Hi > 1e-6 -> reduced_field q Ms Hi 0 = Ms / Hi.
Proof.
  intros HHi. rewrite reduced_field_above by exact HHi.
  f_equal. unfold Rdiv. ring.
Qed.

Lemma denom_unit_x (Hi Ms A D : R) :
  denom 1 0 0 Hi Ms A D = 1 + reduced_field 1 Ms Hi A.
Proof.
  unfold denom. cbv zeta. rewrite MAG_VEC_unit_x, DMI_length_eq.
  unfold Rdiv. simpl pow. rewrite !Rmult_1_r, Rinv_1. ring.
Qed.

(** C2: with [D = 0] both imaginary components vanish, for every [(x, y, z)]
    of non-zero magnitude with a non-zero shared denominator and every
    [Mz], [Hkx], [Hky], [Hi], [Ms <> 0], [A]. *)
Theorem imaginary_parts_vanish_without_DMI (x y z Mz Hkx Hky Hi Ms A : R) :
  MAG_VEC x y z <> 0 ->
  denom x y z Hi Ms A 0 <> 0 ->
  Ms <> 0 ->
  fqMximag x y z Mz Hkx Hky Hi Ms A 0 = 0
  /\ fqMyimag x y z Mz Hkx Hky Hi Ms A 0 = 0.
Proof.
  intros _ _ _. rewrite fqMximag_quotient, fqMyimag_quotient.
  unfold fqMximag_num, fqMyimag_num. cbv zeta.
  rewrite !DMI_length_D0. unfold Rdiv. split; ring.
Qed.

Lemma imaginary_parts_vanish_without_DMI_witness :
  fqMximag 1 0 0 1 1 1 1 1 0 0 = 0 /\ fqMyimag 1 0 0 1 1 1 1 1 0 0 = 0.
Proof.
  apply (imaginary_parts_vanish_without_DMI 1 0 0 1 1 1 1 1 0).
  - rewrite MAG_VEC_unit_x. lra.
  - rewrite denom_unit_x, reduced_field_A0 by lra. lra.
  - lra.
Defined.

(** C5: with [D = 0] and [Hkx = Hky = 0] the real components are the
    longitudinal-transverse coupling term alone. *)
Theorem real_parts_pure_coupling (x y z Mz Hi Ms A : R) :
  MAG_VEC x y z <> 0 ->
  Ms <> 0 ->
  let q := MAG_VEC x y z in
  let chi := reduced_field q Ms Hi A in
  fqMxreal x y z Mz 0 0 Hi Ms A 0
  = - Ms * Mz * x * z / q ^ 2 * chi / (1 + chi * (x ^ 2 + y ^ 2) / q ^ 2)
  /\ fqMyreal x y z Mz 0 0 Hi Ms A 0
     = - Ms * Mz * y * z / q ^ 2 * chi / (1 + chi * (x ^ 2 + y ^ 2) / q ^ 2).
Proof.
  intros _ _ q chi.
  assert (Hden : denom x y z Hi Ms A 0
                 = 1 + chi * (x ^ 2 + y ^ 2) / q ^ 2).
  { unfold denom. cbv zeta. fold q. fold chi.
    rewrite DMI_length_D0. ring. }
  rewrite fqMxreal_quotient, fqMyreal_quotient, Hden.
  unfold fqMxreal_num, fqMyreal_num. cbv zeta. fold q. fold chi.
  rewrite !DMI_length_D0. lits.
  unfold Rdiv. simpl pow. rewrite !Rmult_1_r, Rinv_mult. split; ring.
Qed.

Lemma real_parts_pure_coupling_witness :
  fqMxreal 3 0 4 1 0 0 1 1 0 0
  = - 1 * 1 * 3 * 4 / MAG_VEC 3 0 4 ^ 2 * reduced_field (MAG_VEC 3 0 4) 1 1 0
    / (1 + reduced_field (MAG_VEC 3 0 4) 1 1 0 * (3 ^ 2 + 0 ^ 2)
           / MAG_VEC 3 0 4 ^ 2).
Proof.
  apply (real_parts_pure_coupling 3 0 4 1 1 1 0).
  - unfold MAG_VEC. apply Rgt_not_eq, sqrt_lt_R0. lra.
  - lra.
Defined.

(** C6 (as amended): the four components are their numerators divided by
    the one [denom], which takes neither [Mz] nor [Hkx] nor [Hky]; where
    [denom] is non-zero, [denom] times a component is its numerator. *)
Theorem shared_denominator (x y z Mz Hkx Hky Hi Ms A D : R) :
  (fqMxreal x y z Mz Hkx Hky Hi Ms A D
   = fqMxreal_num x y z Mz Hkx Hky Hi Ms A D / denom x y z Hi Ms A D
   /\ fqMximag x y z Mz Hkx Hky Hi Ms A D
      = fqMximag_num x y z Mz Hky Hi Ms A D / denom x y z Hi Ms A D
   /\ fqMyreal x y z Mz Hkx Hky Hi Ms A D
      = fqMyreal_num x y z Mz Hkx Hky Hi Ms A D / denom x y z Hi Ms A D
   /\ fqMyimag x y z Mz Hkx Hky Hi Ms A D
      = fqMyimag_num x y z Mz Hkx Hi Ms A D / denom x y z Hi Ms A D)
  /\ (denom x y z Hi Ms A D <> 0 ->
      denom x y z Hi Ms A D * fqMxreal x y z Mz Hkx Hky Hi Ms A D
      = fqMxreal_num x y z Mz Hkx Hky Hi Ms A D
      /\ denom x y z Hi Ms A D * fqMximag x y z Mz Hkx Hky Hi Ms A D
         = fqMximag_num x y z Mz Hky Hi Ms A D
      /\ denom x y z Hi Ms A D * fqMyreal x y z Mz Hkx Hky Hi Ms A D
         = fqMyreal_num x y z Mz Hkx Hky Hi Ms A D
      /\ denom x y z Hi Ms A D * fqMyimag x y z Mz Hkx Hky Hi Ms A D
         = fqMyimag_num x y z Mz Hkx Hi Ms A D).
Proof.
  split.
  - split; [apply fqMxreal_quotient|].
    split; [apply fqMximag_quotient|].
    split; [apply fqMyreal_quotient|apply fqMyimag_quotient].
  - intros Hd.
    rewrite fqMxreal_quotient, fqMximag_quotient,
      fqMyreal_quotient, fqMyimag_quotient.
    rewrite !Rmult_div_cancel by exact Hd.
    split; [reflexivity|]. split; [reflexivity|]. split; reflexivity.
Qed.

Lemma shared_denominator_witness :
  denom 1 0 0 1 1 0 0 <> 0
  /\ denom 1 0 0 1 1 0 0 * fqMxreal 1 0 0 1 1 1 1 1 0 0
     = fqMxreal_num 1 0 0 1 1 1 1 1 0 0.
Proof.
  assert (Hd : denom 1 0 0 1 1 0 0 <> 0).
  { rewrite denom_unit_x, reduced_field_A0 by lra. lra. }
  split; [exact Hd|].
  apply (proj2 (shared_denominator 1 0 0 1 1 1 1 1 0 0)). exact Hd.
Defined.

(** C6 (as stated) fails where the denominator is zero: at
    [x = 1, y = z = 0, Ms = -1, Hi = 1, A = 0, D = 0] the susceptibility is
    [-1], [denom] is [0], and the numerator of [fqMxreal] for [Hkx = 1] is
    [-1]. *)
Lemma shared_denominator_counterexample :
  denom 1 0 0 1 (-1) 0 0 * fqMxreal 1 0 0 0 1 0 1 (-1) 0 0
  <> fqMxreal_num 1 0 0 0 1 0 1 (-1) 0 0.
Proof.
  assert (Hchi : reduced_field 1 (-1) 1 0 = -1).
  { rewrite reduced_field_A0 by lra. lra. }
  assert (Hd : denom 1 0 0 1 (-1) 0 0 = 0).
  { rewrite denom_unit_x, Hchi. ring. }
  assert (Hn : fqMxreal_num 1 0 0 0 1 0 1 (-1) 0 0 = -1).
  { unfold fqMxreal_num. cbv zeta. rewrite MAG_VEC_unit_x, Hchi.
    rewrite !DMI_length_D0. lits. unfold Rdiv. rewrite Rinv_1. ring. }
  rewrite Hd, Hn, Rmult_0_l. lra.
Qed.

(** C10: [fqMximag] takes the same value for any two [Hkx], and [fqMyimag]
    for any two [Hky]. *)
Theorem imaginary_parts_ignore_own_anisotropy
    (x y z Mz Hkx Hky Hi Ms A D Hkx1 Hkx2 Hky1 Hky2 : R) :
  MAG_VEC x y z <> 0 ->
  denom x y z Hi Ms A D <> 0 ->
  Ms <> 0 ->
  fqMximag x y z Mz Hkx1 Hky Hi Ms A D = fqMximag x y z Mz Hkx2 Hky Hi Ms A D
  /\ fqMyimag x y z Mz Hkx Hky1 Hi Ms A D
     = fqMyimag x y z Mz Hkx Hky2 Hi Ms A D.
Proof.
  intros _ _ _. split; reflexivity.
Qed.

Lemma imaginary_parts_ignore_own_anisotropy_witness :
  fqMximag 1 0 0 1 2 1 1 1 0 1 = fqMximag 1 0 0 1 3 1 1 1 0 1
  /\ fqMyimag 1 0 0 1 1 2 1 1 0 1 = fqMyimag 1 0 0 1 1 3 1 1 0 1.
Proof.
  apply (imaginary_parts_ignore_own_anisotropy 1 0 0 1 1 1 1 1 0 1 2 3 2 3).
  - rewrite MAG_VEC_unit_x. lra.
  - rewrite denom_unit_x, reduced_field_A0 by lra. lra.
  - lra.
Defined.

(** ** The channel loop and the evaluators *)

Lemma fold_sum_ext (f g : nat -> R) (l : list nat) (acc : R) :
  (forall i, f i = g i) ->
  fold_left (fun a i => a + f i) l acc = fold_left (fun a i => a + g i) l acc.
Proof.
  intros Hfg. revert acc.
  induction l as [|i l IH]; intros acc; simpl.
  - reflexivity.
  - rewrite Hfg. apply IH.
Qed.

Lemma sum_loop_ext (n : nat) (f g : nat -> R) :
  (forall i, f i = g i) -> sum_loop n f = sum_loop n g.
Proof. intros Hfg. unfold sum_loop. now apply fold_sum_ext. Qed.

Lemma channel_step_term (weights sld : nat -> R) (form : R) (xs : nat) :
  channel_step weights sld form xs
  = form + channel_term (weights xs) (sld xs).
Proof.
  unfold channel_step, channel_term.
  replace 1.0e-8 with 1e-8 by lra.
  destruct (Rgt_dec (weights xs) 1e-8); ring.
Qed.

Lemma channel_form_sum8 (weights sld : nat -> R) :
  channel_form weights sld
  = sum8 (fun xs => channel_term (weights xs) (sld xs)).
Proof.
  unfold channel_form, sum8. simpl fold_left.
  rewrite !channel_step_term. lits. ring.
Qed.

(** The guard of [Iqxy]: past it the result is the scaled easy-axis
    average, before it there is none. *)
Lemma Iqxy_guard {E : Collaborators}
    (qx qy radius thickness core_nuc shell_nuc solvent_nuc
     core_Ms shell_Ms solvent_Ms core_hk Hi Ms A D up_i up_f alpha beta : R) :
  Iqxy qx qy radius thickness core_nuc shell_nuc solvent_nuc
       core_Ms shell_Ms solvent_Ms core_hk Hi Ms A D up_i up_f alpha beta
  = let q := MAG_VEC qx qy 0 in
    if Rgt_dec q 1e-16 then
      Some (0.5 * 1e-4
            * gamma_average q
                (set_scatvec q (qx / q) (qy / q) alpha beta)
                (set_weights up_i up_f)
                radius thickness core_hk
                (fq q radius thickness core_Ms shell_Ms solvent_Ms)
                (fq q radius thickness core_nuc shell_nuc solvent_nuc)
                Hi Ms A D)
    else None.
Proof.
  unfold Iqxy, gamma_average. cbv zeta.
  replace 1.0e-16 with 1e-16 by lra.
  destruct (Rgt_dec (MAG_VEC qx qy 0) 1e-16) as [Hq|Hq]; [|reflexivity].
  f_equal. replace 1.0e-4 with 1e-4 by lra. f_equal.
  apply sum_loop_ext. intros i.
  rewrite channel_form_sum8. reflexivity.
Qed.

Lemma Iq_average {E : Collaborators}
    (q radius thickness core_nuc shell_nuc solvent_nuc
     core_Ms shell_Ms solvent_Ms core_hk Hi Ms A D up_i up_f alpha beta : R) :
  Iq q radius thickness core_nuc shell_nuc solvent_nuc
     core_Ms shell_Ms solvent_Ms core_hk Hi Ms A D up_i up_f alpha beta
  = 0.25 * 1e-4
    * sum_loop GAUSS_N (fun j =>
        let theta := M_PI * (GAUSS_Z j + 1.0) in
        GAUSS_W j
        * gamma_average q
            (set_scatvec q (cos theta) (sin theta) alpha beta)
            (set_weights up_i up_f)
            radius thickness core_hk
            (fq q radius thickness core_Ms shell_Ms solvent_Ms)
            (fq q radius thickness core_nuc shell_nuc solvent_nuc)
            Hi Ms A D).
Proof.
  unfold Iq, gamma_average. cbv zeta.
  replace 1.0e-4 with 1e-4 by lra. f_equal.
  apply sum_loop_ext. intros j. f_equal.
  apply sum_loop_ext. intros i.
  rewrite channel_form_sum8. reflexivity.
Qed.

(** C1: at the zero scattering vector [Iqxy] returns no value at all, for
    any collaborators and any values of the other parameters; the guarded
    branch has no [return], so the result is not the value [0.0]. *)
Theorem Iqxy_zero_vector_returns_nothing {E : Collaborators}
    (radius thickness core_nuc shell_nuc solvent_nuc
     core_Ms shell_Ms solvent_Ms core_hk Hi Ms A D up_i up_f alpha beta : R) :
  Iqxy 0 0 radius thickness core_nuc shell_nuc solvent_nuc
       core_Ms shell_Ms solvent_Ms core_hk Hi Ms A D up_i up_f alpha beta
  = None
  /\ Iqxy 0 0 radius thickness core_nuc shell_nuc solvent_nuc
          core_Ms shell_Ms solvent_Ms core_hk Hi Ms A D up_i up_f alpha beta
     <> Some 0.0.
Proof.
  assert (HN : Iqxy 0 0 radius thickness core_nuc shell_nuc solvent_nuc
                 core_Ms shell_Ms solvent_Ms core_hk Hi Ms A D
                 up_i up_f alpha beta = None).
  { rewrite Iqxy_guard. cbv zeta. rewrite MAG_VEC_zero.
    destruct (Rgt_dec 0 1e-16) as [Hq|Hq]; [lra|reflexivity]. }
  split; [exact HN|]. rewrite HN. discriminate.
Qed.

(** Below the threshold of the guard the same holds for every [(qx, qy)]. *)
Lemma Iqxy_guarded_branch {E : Collaborators}
    (qx qy radius thickness core_nuc shell_nuc solvent_nuc
     core_Ms shell_Ms solvent_Ms core_hk Hi Ms A D up_i up_f alpha beta : R) :
  MAG_VEC qx qy 0 <= 1e-16 ->
  Iqxy qx qy radius thickness core_nuc shell_nuc solvent_nuc
       core_Ms shell_Ms solvent_Ms core_hk Hi Ms A D up_i up_f alpha beta
  = None.
Proof.
  intros Hq. rewrite Iqxy_guard. cbv zeta.
  destruct (Rgt_dec (MAG_VEC qx qy 0) 1e-16) as [Hgt|_]; [lra|reflexivity].
Qed.

(** C9 (as amended): in the channel loop of both evaluators a channel is
    skipped exactly when its weight is at most [1e-8] (the test is
    [weights[xs] > 1.0e-8]); every channel whose weight exceeds [1e-8] adds
    [weight * sld^2] to the per-node form value. *)
Theorem channel_accumulation (weights sld : nat -> R) (form : R) (xs : nat) :
  (weights xs <= 1e-8 -> channel_step weights sld form xs = form)
  /\ (weights xs > 1e-8 ->
      channel_step weights sld form xs = form + weights xs * sld xs ^ 2)
  /\ channel_form weights sld
     = sum8 (fun k => if Rgt_dec (weights k) 1e-8
                      then weights k * sld k ^ 2 else 0)
  /\ (forall (E : Collaborators)
        (qx qy radius thickness core_nuc shell_nuc solvent_nuc
         core_Ms shell_Ms solvent_Ms core_hk Hi Ms A D
         up_i up_f alpha beta : R),
        Iqxy qx qy radius thickness core_nuc shell_nuc solvent_nuc
             core_Ms shell_Ms solvent_Ms core_hk Hi Ms A D
             up_i up_f alpha beta
        = let q := MAG_VEC qx qy 0 in
          if Rgt_dec q 1e-16 then
            Some (0.5 * 1e-4
                  * gamma_average q
                      (set_scatvec q (qx / q) (qy / q) alpha beta)
                      (set_weights up_i up_f)
                      radius thickness core_hk
                      (fq q radius thickness core_Ms shell_Ms solvent_Ms)
                      (fq q radius thickness core_nuc shell_nuc solvent_nuc)
                      Hi Ms A D)
          else None)
  /\ (forall (E : Collaborators)
        (q radius thickness core_nuc shell_nuc solvent_nuc
         core_Ms shell_Ms solvent_Ms core_hk Hi Ms A D
         up_i up_f alpha beta : R),
        Iq q radius thickness core_nuc shell_nuc solvent_nuc
           core_Ms shell_Ms solvent_Ms core_hk Hi Ms A D
           up_i up_f alpha beta
        = 0.25 * 1e-4
          * sum_loop GAUSS_N (fun j =>
              let theta := M_PI * (GAUSS_Z j + 1.0) in
              GAUSS_W j
              * gamma_average q
                  (set_scatvec q (cos theta) (sin theta) alpha beta)
                  (set_weights up_i up_f)
                  radius thickness core_hk
                  (fq q radius thickness core_Ms shell_Ms solvent_Ms)
                  (fq q radius thickness core_nuc shell_nuc solvent_nuc)
                  Hi Ms A D)).
Proof.
  split; [|split; [|split; [|split]]].
  - intros Hw. rewrite channel_step_term. unfold channel_term.
    destruct (Rgt_dec (weights xs) 1e-8); [lra|ring].
  - intros Hw. rewrite channel_step_term. unfold channel_term.
    destruct (Rgt_dec (weights xs) 1e-8); [ring|contradiction].
  - apply channel_form_sum8.
  - intros E. intros. apply Iqxy_guard.
  - intros E. intros. apply Iq_average.
Qed.

Lemma channel_accumulation_witness :
  (weights_at_threshold 2 <= 1e-8 /\
   channel_step weights_at_threshold unit_sld 5 2 = 5)
  /\ (weights_at_threshold 4 > 1e-8 /\
      channel_step weights_at_threshold unit_sld 5 4
      = 5 + weights_at_threshold 4 * unit_sld 4 ^ 2).
Proof.
  assert (H2 : weights_at_threshold 2 <= 1e-8) by (simpl; lra).
  assert (H4 : weights_at_threshold 4 > 1e-8) by (simpl; lra).
  split; split; try assumption.
  - apply (proj1 (channel_accumulation weights_at_threshold unit_sld 5 2)).
    exact H2.
  - apply (proj1 (proj2
             (channel_accumulation weights_at_threshold unit_sld 5 4))).
    exact H4.
Defined.

(** C9 (as stated) fails at a weight of exactly [1e-8]: it is not below
    [1e-8], yet the loop skips it.  With the two [uu] weights at [1e-8], the
    two [du] weights at [1 - 1e-8] and unit amplitudes the loop yields
    [2 - 2e-8], where skipping only weights below [1e-8] yields [2]. *)
Lemma channel_accumulation_counterexample :
  channel_form weights_at_threshold unit_sld = 2 - 2e-8
  /\ channel_form_spec weights_at_threshold unit_sld = 2
  /\ channel_form weights_at_threshold unit_sld
     <> channel_form_spec weights_at_threshold unit_sld.
Proof.
  assert (Hcode : channel_form weights_at_threshold unit_sld = 2 - 2e-8).
  { rewrite channel_form_sum8. unfold sum8, channel_term, unit_sld.
    simpl weights_at_threshold.
    repeat match goal with
           | |- context [Rgt_dec ?a ?b] =>
               destruct (Rgt_dec a b); try lra
           end. }
  assert (Hspec : channel_form_spec weights_at_threshold unit_sld = 2).
  { unfold channel_form_spec, sum8, channel_term_spec, unit_sld.
    simpl weights_at_threshold.
    repeat match goal with
           | |- context [Rlt_dec ?a ?b] =>
               destruct (Rlt_dec a b); try lra
           end. }
  split; [exact Hcode|]. split; [exact Hspec|].
  rewrite Hcode, Hspec. lra.
Qed.

(** * Further properties of the kernel *)

(** ** Particle volume *)

Lemma cube_monotone (a b : R) : 0 <= a -> a <= b -> cube a <= cube b.
Proof.
  intros Ha Hab. unfold cube.
  assert (H1 : a * a <= b * b) by nra.
  assert (H2 : 0 <= a * a) by nra.
  nra.
Qed.

(** X1: the volume is non-negative and grows with the outer radius
    [radius + thickness], as long as the outer radius is non-negative. *)
Theorem form_volume_nonneg_monotone (r1 t1 r2 t2 : R) :
  0 <= r1 + t1 -> r1 + t1 <= r2 + t2 ->
  0 <= form_volume r1 t1 /\ form_volume r1 t1 <= form_volume r2 t2.
Proof.
  intros H0 Hle. unfold form_volume, M_4PI_3.
  assert (Hpi := PI_RGT_0).
  assert (Hc0 : 0 <= cube (r1 + t1)).
  { replace 0 with (cube 0) by (unfold cube; ring).
    apply cube_monotone; lra. }
  assert (Hc := cube_monotone _ _ H0 Hle).
  assert (Hk : 0 < 4 * PI / 3) by lra.
  split; nra.
Qed.

Lemma form_volume_nonneg_monotone_witness :
  0 <= form_volume 50 10 /\ form_volume 50 10 <= form_volume 60 10.
Proof.
  apply (form_volume_nonneg_monotone 50 10 60 10); lra.
Defined.

(** X2: the volume is that of the sphere whose radius is the effective
    radius of any mode other than 2 (the core radius, mode 2, gives it only
    for a zero shell), and it scales with the cube of the lengths. *)
Theorem form_volume_effective_radius_scaling
    (mode : Z) (radius thickness k : R) :
  (mode <> 2%Z ->
   form_volume radius thickness
   = form_volume (radius_effective mode radius thickness) 0)
  /\ form_volume radius 0
     = form_volume (radius_effective 2 radius thickness) 0
  /\ form_volume (k * radius) (k * thickness)
     = k ^ 3 * form_volume radius thickness.
Proof.
  split; [|split].
  - intros Hm.
    assert (Hr : radius_effective mode radius thickness = radius + thickness).
    { unfold radius_effective.
      destruct mode as [|p|p]; try reflexivity.
      destruct p as [p|p|]; try reflexivity;
        destruct p as [p|p|]; try reflexivity.
      contradiction. }
    rewrite Hr. unfold form_volume. now rewrite Rplus_0_r.
  - reflexivity.
  - unfold form_volume, cube. ring.
Qed.

Lemma form_volume_effective_radius_scaling_witness :
  form_volume 50 10 = form_volume (radius_effective 1 50 10) 0.
Proof.
  apply (proj1 (form_volume_effective_radius_scaling 1 50 10 1)).
  discriminate.
Defined.

(** ** Susceptibility *)

(** X3: for [Ms <> 0], every internal field at or below the floor, negative
    ones included, gives the susceptibility of the floor [1e-6]. *)
Theorem reduced_field_flat_below_floor (q Ms Hi A : R) :
  Ms <> 0 -> Hi <= 1e-6 ->
  reduced_field q Ms Hi A = reduced_field q Ms 1e-6 A
  /\ reduced_field q Ms Hi A = reduced_field q Ms 0 A.
Proof.
  intros _ HHi. rewrite !reduced_field_floored by lra. split; reflexivity.
Qed.

Lemma reduced_field_flat_below_floor_witness :
  reduced_field 1 1 (-5) 1 = reduced_field 1 1 1e-6 1.
Proof.
  apply (reduced_field_flat_below_floor 1 1 (-5) 1); lra.
Defined.

(** X4: for [Ms > 0] and [A >= 0] the susceptibility is positive and at
    most [Ms / max(Hi, 1e-6)], hence at most [1e6 * Ms]; the bound
    [Ms / max(Hi, 1e-6)] is its value at [q = 0]. *)
Theorem reduced_field_bounds (q Ms Hi A : R) :
  0 < Ms -> 0 <= A ->
  0 < reduced_field q Ms Hi A
  /\ reduced_field q Ms Hi A <= Ms / Rmax Hi 1e-6
  /\ Ms / Rmax Hi 1e-6 <= 1e6 * Ms
  /\ reduced_field 0 Ms Hi A = Ms / Rmax Hi 1e-6.
Proof.
  intros HMs HA.
  assert (Hh := Hi_eff_pos Hi).
  assert (Hfloor : 1e-6 <= Hi_eff Hi) by apply Rmax_r.
  assert (Hc := exchange_term_nonneg q Ms A HMs HA).
  fold (Hi_eff Hi). rewrite !reduced_field_Hi_eff.
  split; [|split; [|split]].
  - apply Rdiv_lt_0_compat; lra.
  - apply Rdiv_antitone_pos; lra.
  - replace (1e6 * Ms) with (Ms / 1e-6) by (unfold Rdiv; lra).
    apply Rdiv_antitone_pos; lra.
  - f_equal. unfold Rdiv. ring.
Qed.

Lemma reduced_field_bounds_witness :
  0 < reduced_field 1 1 0 1 /\ reduced_field 1 1 0 1 <= 1 / Rmax 0 1e-6.
Proof.
  pose proof (reduced_field_bounds 1 1 0 1 ltac:(lra) ltac:(lra))
    as (H1 & H2 & _).
  split; assumption.
Defined.

(** X5: the susceptibility depends on [q] through [q * q] only, and for
    [Ms > 0], [A >= 0] it does not increase when [q * q] grows. *)
Theorem reduced_field_antitone_q (q1 q2 Ms Hi A : R) :
  0 < Ms -> 0 <= A -> q1 * q1 <= q2 * q2 ->
  reduced_field q2 Ms Hi A <= reduced_field q1 Ms Hi A
  /\ reduced_field (- q1) Ms Hi A = reduced_field q1 Ms Hi A.
Proof.
  intros HMs HA Hq. rewrite !reduced_field_Hi_eff. split.
  - assert (Hh := Hi_eff_pos Hi).
    assert (Hc := exchange_term_nonneg q1 Ms A HMs HA).
    apply Rdiv_antitone_pos; [assumption|lra|].
    apply Rplus_le_compat_l.
    assert (Hk : 0 <= 2 * A * 4 * PI / Ms).
    { generalize (exchange_term_nonneg 1 Ms A HMs HA). lra. }
    replace (2 * A * 4 * PI / Ms * q1 * q1 * 10)
      with (10 * (2 * A * 4 * PI / Ms) * (q1 * q1)) by ring.
    replace (2 * A * 4 * PI / Ms * q2 * q2 * 10)
      with (10 * (2 * A * 4 * PI / Ms) * (q2 * q2)) by ring.
    apply Rmult_le_compat_l; [lra|assumption].
  - f_equal. f_equal. ring.
Qed.

Lemma reduced_field_antitone_q_witness :
  reduced_field 2 1 1 1 <= reduced_field 1 1 1 1.
Proof.
  apply (reduced_field_antitone_q 1 2 1 1 1); lra.
Defined.

(** ** Chiral length *)

(** X6: for [Ms <> 0] the chiral length does not see the sign of [Ms],
    vanishes for a zero projection, and scales with the inverse square of
    [Ms]. *)
Theorem DMI_length_Ms_scaling (Ms D p k : R) :
  Ms <> 0 -> k <> 0 ->
  DMI_length (- Ms) D p = DMI_length Ms D p
  /\ DMI_length Ms D 0 = 0
  /\ DMI_length (k * Ms) D p = DMI_length Ms D p / (k * k).
Proof.
  intros _ _. rewrite !DMI_length_eq. unfold Rdiv.
  rewrite <- !Rinv_mult.
  split; [|split].
  - replace (- Ms * - Ms) with (Ms * Ms) by ring. reflexivity.
  - ring.
  - replace (k * Ms * (k * Ms)) with (Ms * Ms * (k * k)) by ring.
    rewrite (Rinv_mult (Ms * Ms)). ring.
Qed.

Lemma DMI_length_Ms_scaling_witness :
  DMI_length (- 2) 3 5 = DMI_length 2 3 5
  /\ DMI_length 2 3 0 = 0
  /\ DMI_length (10 * 2) 3 5 = DMI_length 2 3 5 / (10 * 10).
Proof.
  apply (DMI_length_Ms_scaling 2 3 5 10); lra.
Defined.

(** ** Symmetries of the magnetisation response *)

Lemma MAG_VEC_swap (x y z : R) : MAG_VEC y x z = MAG_VEC x y z.
Proof. unfold MAG_VEC. f_equal. ring. Qed.

Lemma MAG_VEC_opp (x y z : R) : MAG_VEC (- x) (- y) (- z) = MAG_VEC x y z.
Proof. unfold MAG_VEC. f_equal. ring. Qed.

Lemma MAG_VEC_nonneg (x y z : R) : 0 <= MAG_VEC x y z.
Proof. unfold MAG_VEC. apply sqrt_pos. Qed.

Lemma MAG_VEC_sqr (x y z : R) :
  MAG_VEC x y z ^ 2 = x * x + y * y + z * z.
Proof.
  unfold MAG_VEC. apply pow2_sqrt. nra.
Qed.

Lemma denom_swap (x y z Hi Ms A D : R) :
  denom y x z Hi Ms A D = denom x y z Hi Ms A D.
Proof.
  unfold denom. cbv zeta. rewrite MAG_VEC_swap. unfold Rdiv. ring.
Qed.

Lemma denom_opp (x y z Hi Ms A D : R) :
  denom (- x) (- y) (- z) Hi Ms A D = denom x y z Hi Ms A D.
Proof.
  unfold denom. cbv zeta. rewrite MAG_VEC_opp, !DMI_length_eq.
  unfold Rdiv. ring.
Qed.

Lemma denom_D_opp (x y z Hi Ms A D : R) :
  denom x y z Hi Ms A (- D) = denom x y z Hi Ms A D.
Proof.
  unfold denom. cbv zeta. rewrite !DMI_length_eq. unfold Rdiv. ring.
Qed.

(** Rewrites the four components as numerator over [denom] and opens the
    numerators. *)
Ltac open_components :=
  rewrite ?fqMxreal_quotient, ?fqMximag_quotient,
    ?fqMyreal_quotient, ?fqMyimag_quotient;
  unfold fqMxreal_num, fqMximag_num, fqMyreal_num, fqMyimag_num;
  cbv zeta.

Ltac close_components :=
  rewrite ?DMI_length_eq; lits; unfold Rdiv; ring.

(** X7: exchanging the roles of [x] and [y] (and of [Hkx] and [Hky]) turns
    the x-components into the y-components: the real part as it is, the
    imaginary part with the opposite sign of the component and of the
    anisotropy field it takes. *)
Theorem components_swap_xy (x y z Mz Hkx Hky Hi Ms A D : R) :
  MAG_VEC x y z <> 0 ->
  denom x y z Hi Ms A D <> 0 ->
  fqMyreal x y z Mz Hkx Hky Hi Ms A D = fqMxreal y x z Mz Hky Hkx Hi Ms A D
  /\ fqMyimag x y z Mz Hkx Hky Hi Ms A D
     = - fqMximag y x z Mz Hky (- Hkx) Hi Ms A D.
Proof.
  intros _ _. open_components.
  rewrite (denom_swap x y z), (MAG_VEC_swap x y z). split; close_components.
Qed.

Lemma components_swap_xy_witness :
  fqMyreal 1 0 0 1 2 3 1 1 0 1 = fqMxreal 0 1 0 1 3 2 1 1 0 1
  /\ fqMyimag 1 0 0 1 2 3 1 1 0 1 = - fqMximag 0 1 0 1 3 (- 2) 1 1 0 1.
Proof.
  apply (components_swap_xy 1 0 0 1 2 3 1 1 0 1).
  - rewrite MAG_VEC_unit_x. lra.
  - rewrite denom_unit_x, reduced_field_A0 by lra. lra.
Defined.

(** X8: under inversion of the scattering vector the real parts keep their
    value and the imaginary parts change sign. *)
Theorem components_inversion (x y z Mz Hkx Hky Hi Ms A D : R) :
  MAG_VEC x y z <> 0 ->
  denom x y z Hi Ms A D <> 0 ->
  fqMxreal (- x) (- y) (- z) Mz Hkx Hky Hi Ms A D
  = fqMxreal x y z Mz Hkx Hky Hi Ms A D
  /\ fqMyreal (- x) (- y) (- z) Mz Hkx Hky Hi Ms A D
     = fqMyreal x y z Mz Hkx Hky Hi Ms A D
  /\ fqMximag (- x) (- y) (- z) Mz Hkx Hky Hi Ms A D
     = - fqMximag x y z Mz Hkx Hky Hi Ms A D
  /\ fqMyimag (- x) (- y) (- z) Mz Hkx Hky Hi Ms A D
     = - fqMyimag x y z Mz Hkx Hky Hi Ms A D.
Proof.
  intros _ _. open_components.
  rewrite !denom_opp, !MAG_VEC_opp.
  split; [|split; [|split]]; close_components.
Qed.

Lemma components_inversion_witness :
  fqMximag (- 1) (- 0) (- 0) 1 2 3 1 1 0 1 = - fqMximag 1 0 0 1 2 3 1 1 0 1.
Proof.
  apply (components_inversion 1 0 0 1 2 3 1 1 0 1).
  - rewrite MAG_VEC_unit_x. lra.
  - rewrite denom_unit_x, reduced_field_A0 by lra. lra.
Defined.

(** X9: reversing the sign of the DMI constant leaves the real parts
    unchanged and reverses the imaginary parts. *)
Theorem components_DMI_sign (x y z Mz Hkx Hky Hi Ms A D : R) :
  MAG_VEC x y z <> 0 ->
  denom x y z Hi Ms A D <> 0 ->
  fqMxreal x y z Mz Hkx Hky Hi Ms A (- D)
  = fqMxreal x y z Mz Hkx Hky Hi Ms A D
  /\ fqMyreal x y z Mz Hkx Hky Hi Ms A (- D)
     = fqMyreal x y z Mz Hkx Hky Hi Ms A D
  /\ fqMximag x y z Mz Hkx Hky Hi Ms A (- D)
     = - fqMximag x y z Mz Hkx Hky Hi Ms A D
  /\ fqMyimag x y z Mz Hkx Hky Hi Ms A (- D)
     = - fqMyimag x y z Mz Hkx Hky Hi Ms A D.
Proof.
  intros _ _. open_components. rewrite !denom_D_opp.
  split; [|split; [|split]]; close_components.
Qed.

Lemma components_DMI_sign_witness :
  fqMyimag 1 0 0 1 2 3 1 1 0 (- 1) = - fqMyimag 1 0 0 1 2 3 1 1 0 1.
Proof.
  apply (components_DMI_sign 1 0 0 1 2 3 1 1 0 1).
  - rewrite MAG_VEC_unit_x. lra.
  - rewrite denom_unit_x, reduced_field_A0 by lra. lra.
Defined.

(** X10: the response is linear in the perturbation [(Mz, Hkx, Hky)]: a
    combination of two perturbations gives the same combination of the
    responses, for each of the four components. *)
Theorem components_superposition
    (x y z Hi Ms A D a b Mz1 Hkx1 Hky1 Mz2 Hkx2 Hky2 : R) :
  MAG_VEC x y z <> 0 ->
  denom x y z Hi Ms A D <> 0 ->
  fqMxreal x y z (a * Mz1 + b * Mz2) (a * Hkx1 + b * Hkx2)
           (a * Hky1 + b * Hky2) Hi Ms A D
  = a * fqMxreal x y z Mz1 Hkx1 Hky1 Hi Ms A D
    + b * fqMxreal x y z Mz2 Hkx2 Hky2 Hi Ms A D
  /\ fqMximag x y z (a * Mz1 + b * Mz2) (a * Hkx1 + b * Hkx2)
              (a * Hky1 + b * Hky2) Hi Ms A D
     = a * fqMximag x y z Mz1 Hkx1 Hky1 Hi Ms A D
       + b * fqMximag x y z Mz2 Hkx2 Hky2 Hi Ms A D
  /\ fqMyreal x y z (a * Mz1 + b * Mz2) (a * Hkx1 + b * Hkx2)
              (a * Hky1 + b * Hky2) Hi Ms A D
     = a * fqMyreal x y z Mz1 Hkx1 Hky1 Hi Ms A D
       + b * fqMyreal x y z Mz2 Hkx2 Hky2 Hi Ms A D
  /\ fqMyimag x y z (a * Mz1 + b * Mz2) (a * Hkx1 + b * Hkx2)
              (a * Hky1 + b * Hky2) Hi Ms A D
     = a * fqMyimag x y z Mz1 Hkx1 Hky1 Hi Ms A D
       + b * fqMyimag x y z Mz2 Hkx2 Hky2 Hi Ms A D.
Proof.
  intros _ _. open_components.
  split; [|split; [|split]]; unfold Rdiv; ring.
Qed.

Lemma components_superposition_witness :
  fqMxreal 1 0 0 (2 * 1 + 3 * 0) (2 * 0 + 3 * 1) (2 * 0 + 3 * 0) 1 1 0 1
  = 2 * fqMxreal 1 0 0 1 0 0 1 1 0 1 + 3 * fqMxreal 1 0 0 0 1 0 1 1 0 1.
Proof.
  apply (components_superposition 1 0 0 1 1 0 1 2 3 1 0 0 0 1 0).
  - rewrite MAG_VEC_unit_x. lra.
  - rewrite denom_unit_x, reduced_field_A0 by lra. lra.
Defined.

(** ** The shared denominator on the physical domain *)

Lemma in_plane_fraction (x y z : R) :
  0 <= (x ^ 2 + y ^ 2) / MAG_VEC x y z ^ 2 <= 1.
Proof.
  rewrite MAG_VEC_sqr.
  assert (Hs : 0 <= x ^ 2 + y ^ 2) by nra.
  destruct (Req_dec (x * x + y * y + z * z) 0) as [H0|Hn].
  - rewrite H0. unfold Rdiv. rewrite Rinv_0. lra.
  - assert (Hp : 0 < x * x + y * y + z * z) by nra.
    split.
    + unfold Rdiv. apply Rmult_le_pos; [assumption|].
      apply Rlt_le, Rinv_0_lt_compat. assumption.
    + apply Rmult_le_reg_r with (r := x * x + y * y + z * z); [assumption|].
      unfold Rdiv. rewrite Rmult_assoc, Rinv_l by assumption. nra.
Qed.

(** X11: for [Ms > 0], [A >= 0] and a non-zero scattering vector the
    shared denominator lies between [1 - (chi * L)^2] and
    [1 + chi - (chi * L)^2], with [chi] the susceptibility and [L] the chiral
    length of [z]; it is positive whenever [(chi * L)^2 < 1], and at least
    [1] without DMI. *)
Theorem denom_bounds (x y z Hi Ms A D : R) :
  MAG_VEC x y z <> 0 -> 0 < Ms -> 0 <= A ->
  let chi := reduced_field (MAG_VEC x y z) Ms Hi A in
  let L := DMI_length Ms D z in
  1 - (chi * L) ^ 2 <= denom x y z Hi Ms A D <= 1 + chi - (chi * L) ^ 2
  /\ ((chi * L) ^ 2 < 1 -> 0 < denom x y z Hi Ms A D)
  /\ 1 <= denom x y z Hi Ms A 0.
Proof.
  intros _ HMs HA chi L.
  assert (Hchi : 0 < chi) by (apply reduced_field_bounds; assumption).
  assert (Hf := in_plane_fraction x y z).
  assert (Hprod : 0 <= chi * ((x ^ 2 + y ^ 2) / MAG_VEC x y z ^ 2) <= chi)
    by nra.
  assert (Hd : denom x y z Hi Ms A D
               = 1 + chi * ((x ^ 2 + y ^ 2) / MAG_VEC x y z ^ 2)
                 - (chi * L) ^ 2).
  { unfold denom. cbv zeta. fold chi. fold L. unfold Rdiv. ring. }
  assert (Hd0 : denom x y z Hi Ms A 0
                = 1 + chi * ((x ^ 2 + y ^ 2) / MAG_VEC x y z ^ 2)).
  { unfold denom. cbv zeta. fold chi. rewrite DMI_length_D0.
    unfold Rdiv. ring. }
  rewrite Hd, Hd0. split; [lra|]. split; [intros HL; lra|lra].
Qed.

Lemma denom_bounds_witness :
  1 <= denom 3 0 4 1 1 1 0.
Proof.
  apply (denom_bounds 3 0 4 1 1 1 0).
  - unfold MAG_VEC. apply Rgt_not_eq, sqrt_lt_R0. lra.
  - lra.
  - lra.
Defined.

Lemma denom_in_plane (x y Hi Ms A D : R) :
  MAG_VEC x y 0 <> 0 ->
  denom x y 0 Hi Ms A D = 1 + reduced_field (MAG_VEC x y 0) Ms Hi A.
Proof.
  intros Hq. unfold denom. cbv zeta.
  assert (Hq2 : MAG_VEC x y 0 ^ 2 <> 0) by (apply pow_nonzero; exact Hq).
  assert (Hs : x ^ 2 + y ^ 2 = MAG_VEC x y 0 ^ 2)
    by (rewrite MAG_VEC_sqr; ring).
  rewrite Hs, DMI_length_eq. unfold Rdiv.
  rewrite Rmult_assoc, Rinv_r by exact Hq2. ring.
Qed.

(** X12: for a scattering vector with [z = 0] (non-zero, with a non-zero
    denominator) the denominator is [1 + chi], the imaginary parts are
    [-chi * Ms * Mz * L(y)] and [chi * Ms * Mz * L(x)] whatever the
    anisotropy field, and the real parts depend neither on [Mz] nor on
    [D]. *)
Theorem components_in_plane (x y Mz Hkx Hky Hi Ms A D : R) :
  MAG_VEC x y 0 <> 0 ->
  denom x y 0 Hi Ms A D <> 0 ->
  let chi := reduced_field (MAG_VEC x y 0) Ms Hi A in
  denom x y 0 Hi Ms A D = 1 + chi
  /\ fqMximag x y 0 Mz Hkx Hky Hi Ms A D
     = - chi * Ms * Mz * DMI_length Ms D y
  /\ fqMyimag x y 0 Mz Hkx Hky Hi Ms A D
     = chi * Ms * Mz * DMI_length Ms D x
  /\ fqMxreal x y 0 Mz Hkx Hky Hi Ms A D
     = fqMxreal x y 0 0 Hkx Hky Hi Ms A 0
  /\ fqMyreal x y 0 Mz Hkx Hky Hi Ms A D
     = fqMyreal x y 0 0 Hkx Hky Hi Ms A 0.
Proof.
  intros Hq Hd chi.
  assert (Hden := denom_in_plane x y Hi Ms A D Hq). fold chi in Hden.
  assert (Hden0 := denom_in_plane x y Hi Ms A 0 Hq). fold chi in Hden0.
  assert (H1 : 1 + chi <> 0) by (rewrite <- Hden; exact Hd).
  split; [exact Hden|].
  open_components. fold chi. rewrite Hden, Hden0.
  assert (HL0 : forall D', DMI_length Ms D' 0 = 0)
    by (intros D'; rewrite DMI_length_eq; ring).
  rewrite !HL0. lits.
  split; [|split; [|split]].
  - field. exact H1.
  - field. exact H1.
  - unfold Rdiv. ring.
  - unfold Rdiv. ring.
Qed.

Lemma components_in_plane_witness :
  fqMximag 1 0 0 1 2 3 1 1 0 1
  = - reduced_field (MAG_VEC 1 0 0) 1 1 0 * 1 * 1 * DMI_length 1 1 0.
Proof.
  apply (components_in_plane 1 0 1 2 3 1 1 0 1).
  - rewrite MAG_VEC_unit_x. lra.
  - rewrite denom_unit_x, reduced_field_A0 by lra. lra.
Defined.

(** ** The accumulation loops *)



Lemma fold_sum_scal (c : R) (f : nat -> R) (l : list nat) (acc : R) :
  fold_left (fun a i => a + c * f i) l (c * acc)
  = c * fold_left (fun a i => a + f i) l acc.
Proof.
  revert acc. induction l as [|i l IH]; intros acc; simpl.
  - reflexivity.
  - rewrite <- Rmult_plus_distr_l. apply IH.
Qed.

Lemma sum_loop_scal (c : R) (n : nat) (f : nat -> R) :
  sum_loop n (fun i => c * f i) = c * sum_loop n f.
Proof.
  unfold sum_loop. rewrite <- fold_sum_scal. f_equal. lra.
Qed.

Lemma sum_loop_zero (n : nat) (f : nat -> R) :
  (forall i, f i = 0) -> sum_loop n f = 0.
Proof.
  intros Hf. rewrite (sum_loop_ext n f (fun i => 0 * 0)).
  - rewrite sum_loop_scal. ring.
  - intros i. rewrite Hf. ring.
Qed.

Lemma channel_term_nonneg (w s : R) : 0 <= channel_term w s.
Proof.
  unfold channel_term. destruct (Rgt_dec w 1e-8) as [Hw|_]; [|lra].
  assert (Hs : 0 <= s ^ 2) by apply pow2_ge_0.
  assert (Hw0 : 0 < w) by lra. nra.
Qed.

Lemma channel_term_skipped (w s : R) : w <= 1e-8 -> channel_term w s = 0.
Proof.
  intros Hw. unfold channel_term.
  destruct (Rgt_dec w 1e-8); [lra|reflexivity].
Qed.

(** X13: the per-node form value is never negative, whatever the weights
    (negative ones included) and amplitudes; it is zero when all eight
    weights are at most [1e-8]. *)
Theorem channel_form_nonneg (weights sld : nat -> R) :
  0 <= channel_form weights sld
  /\ ((forall xs, (xs < 8)%nat -> weights xs <= 1e-8) ->
      channel_form weights sld = 0).
Proof.
  rewrite channel_form_sum8. unfold sum8. split.
  - assert (H := fun k => channel_term_nonneg (weights k) (sld k)).
    assert (H0 := H 0%nat). assert (H1 := H 1%nat). assert (H2 := H 2%nat).
    assert (H3 := H 3%nat). assert (H4 := H 4%nat). assert (H5 := H 5%nat).
    assert (H6 := H 6%nat). assert (H7 := H 7%nat). lra.
  - intros Hw.
    rewrite !channel_term_skipped by (apply Hw; repeat constructor).
    ring.
Qed.

Lemma channel_form_nonneg_witness :
  channel_form (fun xs => 1e-9) unit_sld = 0.
Proof.
  apply (proj2 (channel_form_nonneg (fun xs => 1e-9) unit_sld)).
  intros xs _. lra.
Defined.

(** ** The evaluators *)

Lemma sqrt_le_bound (s t : R) : 0 <= s -> 0 <= t -> (sqrt s <= t <-> s <= t * t).
Proof.
  intros Hs Ht. split; intros H.
  - rewrite <- (sqrt_sqrt s Hs).
    assert (H0 := sqrt_pos s). nra.
  - rewrite <- (sqrt_square t Ht). apply sqrt_le_1_alt. exact H.
Qed.

(** X14: [Iqxy] returns a value exactly outside the disc
    [qx^2 + qy^2 <= 1e-32]; inside it, it returns none. *)
Theorem Iqxy_defined_iff {E : Collaborators}
    (qx qy radius thickness core_nuc shell_nuc solvent_nuc
     core_Ms shell_Ms solvent_Ms core_hk Hi Ms A D up_i up_f alpha beta : R) :
  (Iqxy qx qy radius thickness core_nuc shell_nuc solvent_nuc
        core_Ms shell_Ms solvent_Ms core_hk Hi Ms A D up_i up_f alpha beta
   = None <-> qx * qx + qy * qy <= 1e-32)
  /\ ((exists v,
         Iqxy qx qy radius thickness core_nuc shell_nuc solvent_nuc
              core_Ms shell_Ms solvent_Ms core_hk Hi Ms A D
              up_i up_f alpha beta = Some v)
      <-> qx * qx + qy * qy > 1e-32).
Proof.
  assert (Hs : 0 <= qx * qx + qy * qy + 0 * 0) by nra.
  assert (Hb : MAG_VEC qx qy 0 <= 1e-16 <-> qx * qx + qy * qy <= 1e-32).
  { unfold MAG_VEC. rewrite (sqrt_le_bound _ 1e-16 Hs) by lra.
    split; intros H; lra. }
  rewrite Iqxy_guard. cbv zeta.
  destruct (Rgt_dec (MAG_VEC qx qy 0) 1e-16) as [Hq|Hq].
  - assert (Hgt : qx * qx + qy * qy > 1e-32).
    { apply Rnot_le_gt. intros Hle. apply Hb in Hle. lra. }
    split; split; intros H.
    + discriminate.
    + lra.
    + exact Hgt.
    + eexists. reflexivity.
  - assert (Hle : qx * qx + qy * qy <= 1e-32) by (apply Hb; lra).
    split; split; intros H.
    + exact Hle.
    + reflexivity.
    + destruct H as [v Hv]. discriminate.
    + lra.
Qed.




Lemma MAG_VEC_polar (q t : R) :
  0 <= q -> MAG_VEC (q * cos t) (q * sin t) 0 = q.
Proof.
  intros Hq. unfold MAG_VEC.
  assert (H1 := sin2_cos2 t). unfold Rsqr in H1.
  replace (q * cos t * (q * cos t) + q * sin t * (q * sin t) + 0 * 0)
    with (q * q * (sin t * sin t + cos t * cos t)) by ring.
  rewrite H1, Rmult_1_r. apply sqrt_square. exact Hq.
Qed.

(** X16: for [q > 1e-16], [Iq] is half the quadrature sum, over the
    azimuth nodes, of the values [Iqxy] returns at the points
    [(q cos theta_j, q sin theta_j)] of the circle of radius [q]. *)
Theorem Iq_quadrature_of_Iqxy {E : Collaborators}
    (q radius thickness core_nuc shell_nuc solvent_nuc
     core_Ms shell_Ms solvent_Ms core_hk Hi Ms A D up_i up_f alpha beta : R) :
  q > 1e-16 ->
  exists I2 : nat -> R,
    (forall j,
        Iqxy (q * cos (node_angle j)) (q * sin (node_angle j))
             radius thickness core_nuc shell_nuc solvent_nuc
             core_Ms shell_Ms solvent_Ms core_hk Hi Ms A D
             up_i up_f alpha beta
        = Some (I2 j))
    /\ Iq q radius thickness core_nuc shell_nuc solvent_nuc
          core_Ms shell_Ms solvent_Ms core_hk Hi Ms A D up_i up_f alpha beta
       = 0.5 * sum_loop GAUSS_N (fun j => GAUSS_W j * I2 j).
Proof.
  intros Hq.
  set (G := fun j =>
    gamma_average q
      (set_scatvec q (cos (node_angle j)) (sin (node_angle j)) alpha beta)
      (set_weights up_i up_f) radius thickness core_hk
      (fq q radius thickness core_Ms shell_Ms solvent_Ms)
      (fq q radius thickness core_nuc shell_nuc solvent_nuc) Hi Ms A D).
  exists (fun j => 0.5 * 1e-4 * G j). split.
  - intros j. rewrite Iqxy_guard. cbv zeta.
    rewrite MAG_VEC_polar by lra.
    destruct (Rgt_dec q 1e-16) as [_|Hn]; [|contradiction].
    replace (q * cos (node_angle j) / q) with (cos (node_angle j))
      by (field; lra).
    replace (q * sin (node_angle j) / q) with (sin (node_angle j))
      by (field; lra).
    reflexivity.
  - rewrite Iq_average.
    rewrite (sum_loop_ext GAUSS_N
               (fun j => GAUSS_W j * (0.5 * 1e-4 * G j))
               (fun j => (0.5 * 1e-4) * (GAUSS_W j * G j)))
      by (intros j; ring).
    rewrite sum_loop_scal.
    change (sum_loop GAUSS_N (fun j =>
              let theta := M_PI * (GAUSS_Z j + 1.0) in
              GAUSS_W j
              * gamma_average q
                  (set_scatvec q (cos theta) (sin theta) alpha beta)
                  (set_weights up_i up_f) radius thickness core_hk
                  (fq q radius thickness core_Ms shell_Ms solvent_Ms)
                  (fq q radius thickness core_nuc shell_nuc solvent_nuc)
                  Hi Ms A D))
      with (sum_loop GAUSS_N (fun j => GAUSS_W j * G j)).
    lra.
Qed.

Lemma Iq_quadrature_of_Iqxy_witness :
  exists I2 : nat -> R,
    (forall j,
        @Iqxy sample_collaborators
          (1 * cos (@node_angle sample_collaborators j))
          (1 * sin (@node_angle sample_collaborators j))
          50 10 4 1 6 1 1 0 1 1 1 1 0 0.5 0.5 0 0
        = Some (I2 j))
    /\ @Iq sample_collaborators 1 50 10 4 1 6 1 1 0 1 1 1 1 0 0.5 0.5 0 0
       = 0.5 * sum_loop 2 (fun j => 1 * I2 j).
Proof.
  apply (@Iq_quadrature_of_Iqxy sample_collaborators
           1 50 10 4 1 6 1 1 0 1 1 1 1 0 0.5 0.5 0 0).
  lra.
Defined.

(** X17: when all eight polarisation weights are at most [1e-8], [Iq] is
    zero and [Iqxy] returns zero wherever it returns a value. *)
Theorem negligible_weights_zero_intensity {E : Collaborators}
    (q qx qy radius thickness core_nuc shell_nuc solvent_nuc
     core_Ms shell_Ms solvent_Ms core_hk Hi Ms A D up_i up_f alpha beta : R) :
  (forall xs, (xs < 8)%nat -> set_weights up_i up_f xs <= 1e-8) ->
  Iq q radius thickness core_nuc shell_nuc solvent_nuc
     core_Ms shell_Ms solvent_Ms core_hk Hi Ms A D up_i up_f alpha beta = 0
  /\ (MAG_VEC qx qy 0 > 1e-16 ->
      Iqxy qx qy radius thickness core_nuc shell_nuc solvent_nuc
           core_Ms shell_Ms solvent_Ms core_hk Hi Ms A D
           up_i up_f alpha beta = Some 0).
Proof.
  intros Hw.
  assert (HG : forall q' qrot mz nuc,
             gamma_average q' qrot (set_weights up_i up_f)
               radius thickness core_hk mz nuc Hi Ms A D = 0).
  { intros q' qrot mz nuc. unfold gamma_average.
    apply sum_loop_zero. intros i. unfold sum8.
    rewrite !channel_term_skipped by (apply Hw; repeat constructor).
    ring. }
  split.
  - rewrite Iq_average.
    rewrite sum_loop_zero; [ring|].
    intros j. cbv zeta. rewrite HG. ring.
  - intros Hq. rewrite Iqxy_guard. cbv zeta.
    destruct (Rgt_dec (MAG_VEC qx qy 0) 1e-16) as [_|Hn]; [|contradiction].
    rewrite HG. f_equal. ring.
Qed.

Lemma negligible_weights_zero_intensity_witness :
  @Iq sample_collaborators 1 50 10 4 1 6 1 1 0 1 1 1 1 0 0 0.5 0 0 = 0.
Proof.
  apply (proj1 (@negligible_weights_zero_intensity sample_collaborators
                  1 1 0 50 10 4 1 6 1 1 0 1 1 1 1 0 0 0.5 0 0
                  ltac:(intros xs _; simpl; lra))).
Defined.
